(** * vtable: manual dynamic dispatch through a per-instance function table

    A shallow embedding of [src/main.c].  The C program keeps two static
    tables of one function pointer each, allocates [Rect] and [Circle]
    objects with [malloc], copies the matching table into each object and
    calls [draw] through the [Figure] prefix that both structs share.

    The embedding keeps the pieces the C code has:
    - a heap of untyped blocks of slots, so that the casts between
      [Figure*], [Rect*] and [Circle*] are what they are in C: the same
      address read at the same offsets;
    - the two static tables as mutable program state;
    - [malloc] that may return the null pointer;
    - standard output as the text written so far;
    - undefined behaviour as an outcome of its own. *)

From Stdlib Require Import ZArith String Ascii List Lia.
From Stdlib Require Import DecimalString DecimalZ DecimalPos.
From stdpp Require Import gmap strings list.

Open Scope Z_scope.

(** ** Values and memory *)

(** The functions of type [void (Figure* )] that the program stores in a
    [draw] slot, and the null function pointer.  ([call_stuff] has the same
    C type but is never stored in a table.) *)
Inductive fn_ptr : Type :=
  | Fn_null
  | Fn_draw_rect
  | Fn_draw_circle.

(** [typedef struct FigureVTable { void ( *draw)(Figure* self); }] *)
Record FigureVTable : Type := { draw : fn_ptr }.

(** A data pointer: [NULL] or the address of a heap block. *)
Inductive pointer : Type :=
  | Null
  | Loc (l : positive).

(** What one slot of a block holds.  A freshly allocated slot is
    indeterminate. *)
Inductive val : Type :=
  | Vundef
  | Vint (n : Z)
  | Vfun (f : fn_ptr).

Global Instance fn_ptr_eq_dec : EqDecision fn_ptr.
Proof. solve_decision. Defined.
Global Instance pointer_eq_dec : EqDecision pointer.
Proof. solve_decision. Defined.
Global Instance val_eq_dec : EqDecision val.
Proof. solve_decision. Defined.

(** Layout, in slots.  [struct Figure { FigureVTable vtable; }] is one slot;
    [Rect] and [Circle] both start with their [Figure base] and continue
    with one [int]. *)
Definition FigureVTable_draw : nat := 0.
Definition Figure_vtable : nat := 0.
Definition sizeof_Figure : nat := 1.
Definition Rect_base : nat := 0.
Definition Rect_perimeter : nat := sizeof_Figure.
Definition sizeof_Rect : nat := S sizeof_Figure.
Definition Circle_base : nat := 0.
Definition Circle_radius : nat := sizeof_Figure.
Definition sizeof_Circle : nat := S sizeof_Figure.

(** An [int] is an integer between [INT_MIN] and [INT_MAX].  The program
    stores, copies and prints its integers and computes nothing with them,
    so no operation here wraps around. *)
Definition INT_MIN : Z := - 2 ^ 31.
Definition INT_MAX : Z := 2 ^ 31 - 1.

(** The program state.  [allocs] is the allocator's future: one answer per
    coming [malloc] call, [true] for a successful one; an exhausted list
    answers no. *)
Record state : Type := {
  rect_vtable : FigureVTable;
  circle_vtable : FigureVTable;
  heap : gmap positive (list val);
  allocs : list bool;
  stdout : string
}.

Definition set_heap (h : gmap positive (list val)) (s : state) : state :=
  {| rect_vtable := rect_vtable s; circle_vtable := circle_vtable s;
     heap := h; allocs := allocs s; stdout := stdout s |}.

Definition set_allocs (a : list bool) (s : state) : state :=
  {| rect_vtable := rect_vtable s; circle_vtable := circle_vtable s;
     heap := heap s; allocs := a; stdout := stdout s |}.

Definition set_stdout (o : string) (s : state) : state :=
  {| rect_vtable := rect_vtable s; circle_vtable := circle_vtable s;
     heap := heap s; allocs := allocs s; stdout := o |}.

Definition set_rect_vtable (t : FigureVTable) (s : state) : state :=
  {| rect_vtable := t; circle_vtable := circle_vtable s;
     heap := heap s; allocs := allocs s; stdout := stdout s |}.

Definition set_circle_vtable (t : FigureVTable) (s : state) : state :=
  {| rect_vtable := rect_vtable s; circle_vtable := t;
     heap := heap s; allocs := allocs s; stdout := stdout s |}.

(** ** Outcomes and the monad of C statements *)

(** A call returns a value in a new state, ends the process abnormally, or
    has undefined behaviour. *)
Inductive outcome (A : Type) : Type :=
  | Ok (a : A) (s : state)
  | Aborted (s : state)
  | UB.
Arguments Ok {A} a s.
Arguments Aborted {A} s.
Arguments UB {A}.

Definition M (A : Type) : Type := state -> outcome A.

Definition ret {A} (a : A) : M A := fun s => Ok a s.

Definition bind {A B} (m : M A) (k : A -> M B) : M B :=
  fun s =>
    match m s with
    | Ok a s' => k a s'
    | Aborted s' => Aborted s'
    | UB => UB
    end.

Definition undefined {A} : M A := fun _ => UB.

Notation "x <- m ;; k" := (bind m (fun x => k))
  (at level 100, m at next level, right associativity).
Notation "m ;;; k" := (bind m (fun _ => k))
  (at level 100, right associativity).

(** ** The C library calls the program makes *)

(** [malloc(size)]: a fresh block of [size] indeterminate slots, or [NULL]. *)
Definition malloc (size : nat) : M pointer :=
  fun s =>
    match allocs s with
    | true :: rest =>
        let l := fresh (dom (heap s)) in
        Ok (Loc l)
           (set_allocs rest (set_heap (<[l := replicate size Vundef]> (heap s)) s))
    | _ => Ok Null (set_allocs (tail (allocs s)) s)
    end.

(** A write through [p] at slot [ofs].  Writing through [NULL], outside
    every live block, or past the end of a block is undefined. *)
Definition store (p : pointer) (ofs : nat) (v : val) : M unit :=
  fun s =>
    match p with
    | Null => UB
    | Loc l =>
        match heap s !! l with
        | None => UB
        | Some blk =>
            if decide (ofs < length blk)%nat
            then Ok tt (set_heap (<[l := <[ofs := v]> blk]> (heap s)) s)
            else UB
        end
    end.

(** A read through [p] at slot [ofs]; reading an indeterminate slot is
    undefined as well. *)
Definition load (p : pointer) (ofs : nat) : M val :=
  fun s =>
    match p with
    | Null => UB
    | Loc l =>
        match heap s !! l with
        | None => UB
        | Some blk =>
            match blk !! ofs with
            | None | Some Vundef => UB
            | Some v => Ok v s
            end
        end
    end.

(** Reads at type [int] and at type [void ( * )(Figure* )]. *)
Definition load_int (p : pointer) (ofs : nat) : M Z :=
  v <- load p ofs ;;
  match v with
  | Vint n => ret n
  | _ => undefined
  end.

Definition load_fn (p : pointer) (ofs : nat) : M fn_ptr :=
  v <- load p ofs ;;
  match v with
  | Vfun f => ret f
  | _ => undefined
  end.

(** The line feed, written [\n] in C. *)
Definition LF : ascii := ascii_of_nat 10.

(** The text [%d] prints for an [int]. *)
Definition decimal (n : Z) : string := NilZero.string_of_int (Z.to_int n).

(** [printf]'s formatting for the conversions the program uses: [%d] takes
    the next argument, [%%] is a percent sign, every other character is
    copied.  A conversion without an argument, or another conversion, has
    no defined result. *)
Fixpoint format (fmt : string) (args : list Z) : option string :=
  match fmt with
  | EmptyString => Some EmptyString
  | String "%" (String "d" rest) =>
      match args with
      | a :: args' => (fun t => decimal a +:+ t) <$> format rest args'
      | [] => None
      end
  | String "%" (String "%" rest) => String "%" <$> format rest args
  | String "%" _ => None
  | String c rest => String c <$> format rest args
  end.

Definition printf (fmt : string) (args : list Z) : M unit :=
  fun s =>
    match format fmt args with
    | Some text => Ok tt (set_stdout (stdout s +:+ text) s)
    | None => UB
    end.

Definition get_rect_vtable : M FigureVTable := fun s => Ok (rect_vtable s) s.
Definition get_circle_vtable : M FigureVTable := fun s => Ok (circle_vtable s) s.

(** ** The program *)

Definition fmt_rect : string :=
  "Drawing Rect with perimeter: %d" +:+ String LF EmptyString.
Definition fmt_circle : string :=
  "Drawing Circle with radius: %d" +:+ String LF EmptyString.

(** [void draw_rect(Figure* self)]: the downcast keeps the address. *)
Definition draw_rect (self : pointer) : M unit :=
  let rect := self in
  perimeter <- load_int rect Rect_perimeter ;;
  printf fmt_rect [perimeter].

(** [void draw_circle(Figure* self)] *)
Definition draw_circle (self : pointer) : M unit :=
  let circle := self in
  radius <- load_int circle Circle_radius ;;
  printf fmt_circle [radius].

(** A call through a function pointer. *)
Definition call (f : fn_ptr) (self : pointer) : M unit :=
  match f with
  | Fn_null => undefined
  | Fn_draw_rect => draw_rect self
  | Fn_draw_circle => draw_circle self
  end.

(** The struct assignment [dst->vtable = src], one slot wide. *)
Definition store_vtable (p : pointer) (ofs : nat) (t : FigureVTable) : M unit :=
  store p (ofs + FigureVTable_draw) (Vfun (draw t)).

(** [Figure* rect_new(int perimeter)] *)
Definition rect_new (perimeter : Z) : M pointer :=
  rect <- malloc sizeof_Rect ;;
  store rect Rect_perimeter (Vint perimeter) ;;;
  t <- get_rect_vtable ;;
  store_vtable rect (Rect_base + Figure_vtable) t ;;;
  ret rect.

(** [Figure* circle_new(int radius)] *)
Definition circle_new (radius : Z) : M pointer :=
  circle <- malloc sizeof_Circle ;;
  store circle Circle_radius (Vint radius) ;;;
  t <- get_circle_vtable ;;
  store_vtable circle (Circle_base + Figure_vtable) t ;;;
  ret circle.

(** [void call_stuff(Figure *fig)]: [fig->vtable.draw(fig)]. *)
Definition call_stuff (fig : pointer) : M unit :=
  f <- load_fn fig (Figure_vtable + FigureVTable_draw) ;;
  call f fig.

(** [int main(void)] *)
Definition main : M Z :=
  rect <- rect_new 10 ;;
  call_stuff rect ;;;
  circle <- circle_new 8 ;;
  call_stuff circle ;;;
  ret 0.

(** The state at program start: the static initialisers, an empty heap,
    nothing written; the allocator's future is the environment's. *)
Definition init (oracle : list bool) : state :=
  {| rect_vtable := {| draw := Fn_draw_rect |};
     circle_vtable := {| draw := Fn_draw_circle |};
     heap := ∅;
     allocs := oracle;
     stdout := EmptyString |}.

(** ** Operations of the program, and the states it can reach *)

(** One call into the program's interface: the two constructors, the
    dispatcher, and the two rendering functions (which are not [static]
    and so can be called directly). *)
Inductive op : Type :=
  | NewRect (perimeter : Z)
  | NewCircle (radius : Z)
  | CallStuff (fig : pointer)
  | DrawRect (self : pointer)
  | DrawCircle (self : pointer).

Definition run_op (o : op) : M unit :=
  match o with
  | NewRect perimeter => rect_new perimeter ;;; ret tt
  | NewCircle radius => circle_new radius ;;; ret tt
  | CallStuff fig => call_stuff fig
  | DrawRect self => draw_rect self
  | DrawCircle self => draw_circle self
  end.

Fixpoint run_ops (os : list op) : M unit :=
  match os with
  | [] => ret tt
  | o :: os' => run_op o ;;; run_ops os'
  end.

Inductive reachable : state -> Prop :=
  | reachable_init (oracle : list bool) : reachable (init oracle)
  | reachable_step (s s' : state) (o : op) :
      reachable s -> run_op o s = Ok tt s' -> reachable s'.

(** ** Vocabulary of the specification *)

(** The two static tables hold what their initialisers put there. *)
Definition tables_intact (s : state) : Prop :=
  rect_vtable s = {| draw := Fn_draw_rect |} /\
  circle_vtable s = {| draw := Fn_draw_circle |}.

(** The next [malloc] call succeeds; the next [n] calls succeed. *)
Definition malloc_ok (s : state) : Prop := head (allocs s) = Some true.
Definition mallocs_ok (n : nat) (s : state) : Prop :=
  take n (allocs s) = replicate n true.

(** The lines the specification gives for the two variants. *)
Definition rect_line (p : Z) : string :=
  "Drawing Rect with perimeter: " +:+ decimal p +:+ String LF EmptyString.
Definition circle_line (r : Z) : string :=
  "Drawing Circle with radius: " +:+ decimal r +:+ String LF EmptyString.

(** [needle] occurs in [hay]. *)
Definition occurs_in (needle hay : string) : Prop :=
  exists pre post, hay = pre +:+ needle +:+ post.

(** Reading a decimal numeral back. *)
Definition parse_decimal (t : string) : option Z :=
  Z.of_int <$> NilZero.int_of_string t.

(** The text cut into lines at each line feed; text after the last line
    feed counts as a line of its own. *)
Fixpoint lines (text : string) : list string :=
  match text with
  | EmptyString => []
  | String c rest =>
      if decide (c = LF) then EmptyString :: lines rest
      else match lines rest with
           | [] => [String c EmptyString]
           | l :: ls => String c l :: ls
           end
  end.

(** The object at [fig] holds the table entry [f] and the number [n]. *)
Definition object_at (s : state) (fig : pointer) (f : fn_ptr) (n : Z) : Prop :=
  exists l, fig = Loc l /\ heap s !! l = Some [Vfun f; Vint n].

(** A shape as the specification describes it. *)
Inductive shape : Type :=
  | Rectangle (perimeter : Z)
  | Circle (radius : Z).

Definition new (sh : shape) : M pointer :=
  match sh with
  | Rectangle perimeter => rect_new perimeter
  | Circle radius => circle_new radius
  end.

Definition draw_fn (sh : shape) : fn_ptr :=
  match sh with
  | Rectangle _ => Fn_draw_rect
  | Circle _ => Fn_draw_circle
  end.

Definition field (sh : shape) : Z :=
  match sh with
  | Rectangle perimeter => perimeter
  | Circle radius => radius
  end.

Definition line_of (sh : shape) : string :=
  match sh with
  | Rectangle perimeter => rect_line perimeter
  | Circle radius => circle_line radius
  end.

Definition is_shape (s : state) (fig : pointer) (sh : shape) : Prop :=
  object_at s fig (draw_fn sh) (field sh).

(** Construct every shape of a list, first to last; then draw every figure
    of a list through the common interface. *)
Fixpoint new_all (shs : list shape) : M (list pointer) :=
  match shs with
  | [] => ret []
  | sh :: shs' =>
      fig <- new sh ;;
      figs <- new_all shs' ;;
      ret (fig :: figs)
  end.

Fixpoint call_all (figs : list pointer) : M unit :=
  match figs with
  | [] => ret tt
  | fig :: figs' => call_stuff fig ;;; call_all figs'
  end.

Fixpoint concat_lines (ls : list string) : string :=
  match ls with
  | [] => EmptyString
  | l :: ls' => l +:+ concat_lines ls'
  end.

(** The state after a constructor's three statements: a new block at the
    fresh address, holding the table entry and the number. *)
Definition with_object (f : fn_ptr) (n : Z) (s : state) : state :=
  set_allocs (tail (allocs s))
    (set_heap (<[fresh (dom (heap s)) := [Vfun f; Vint n]]> (heap s)) s).

Global Instance malloc_ok_dec (s : state) : Decision (malloc_ok s).
Proof. unfold malloc_ok. apply _. Defined.

(** [s'] has every block of [s], unchanged, and the same static tables. *)
Definition extends (s s' : state) : Prop :=
  heap s ⊆ heap s' /\
  rect_vtable s' = rect_vtable s /\
  circle_vtable s' = circle_vtable s.

(** In a reachable state every live block is a finished object of one of
    the two variants. *)
Definition heap_wf (s : state) : Prop :=
  forall l blk, heap s !! l = Some blk ->
    exists sh, blk = [Vfun (draw_fn sh); Vint (field sh)].

(** No line feed among the characters of [t]. *)
Fixpoint no_LF (t : string) : Prop :=
  match t with
  | EmptyString => True
  | String c rest => c <> LF /\ no_LF rest
  end.

(** Running [m] in [s] appends [text] to the output and changes nothing
    else. *)
Definition emits (m : M unit) (s : state) (text : string) : Prop :=
  m s = Ok tt (set_stdout (stdout s +:+ text) s).

Definition table_of (sh : shape) (s : state) : FigureVTable :=
  match sh with
  | Rectangle _ => rect_vtable s
  | Circle _ => circle_vtable s
  end.

(** The text of a shape's line without its line feed. *)
Definition line_text (sh : shape) : string :=
  match sh with
  | Rectangle perimeter => "Drawing Rect with perimeter: " +:+ decimal perimeter
  | Circle radius => "Drawing Circle with radius: " +:+ decimal radius
  end.

(** How many operations of a list construct an object, and how many draw. *)
Definition constructs (o : op) : bool :=
  match o with
  | NewRect _ | NewCircle _ => true
  | _ => false
  end.

Fixpoint constructions (os : list op) : nat :=
  match os with
  | [] => 0
  | o :: os' => (if constructs o then 1 else 0) + constructions os'
  end%nat.

Fixpoint draws (os : list op) : nat :=
  match os with
  | [] => 0
  | o :: os' => (if constructs o then 0 else 1) + draws os'
  end%nat.

(** The line the function behind a table entry writes for the number [n]. *)
Definition fn_line (f : fn_ptr) (n : Z) : string :=
  match f with
  | Fn_null => EmptyString
  | Fn_draw_rect => rect_line n
  | Fn_draw_circle => circle_line n
  end.

(** A line of either variant. *)
Definition is_line (t : string) : Prop :=
  exists n, t = rect_line n \/ t = circle_line n.

(** * Proofs *)

(** ** Text *)

Lemma append_cons (x : ascii) (a b : string) :
  String x a +:+ b = String x (a +:+ b).
Proof. reflexivity. Qed.

Lemma append_assoc (a b c : string) : (a +:+ b) +:+ c = a +:+ (b +:+ c).
Proof.
  induction a as [|x a IH]; [reflexivity |].
  rewrite !append_cons. now rewrite IH.
Qed.

Lemma append_nil_r (a : string) : a +:+ EmptyString = a.
Proof.
  induction a as [|x a IH]; [reflexivity |].
  rewrite append_cons. now rewrite IH.
Qed.

Lemma format_rect (p : Z) : format fmt_rect [p] = Some (rect_line p).
Proof. reflexivity. Qed.

Lemma format_circle (r : Z) : format fmt_circle [r] = Some (circle_line r).
Proof. reflexivity. Qed.

Lemma parse_decimal_decimal (n : Z) : parse_decimal (decimal n) = Some n.
Proof.
  unfold parse_decimal, decimal.
  rewrite NilZero.isi.
  - simpl. now rewrite DecimalZ.of_to.
  - destruct n; simpl; try discriminate.
    intros H; injection H as H. now apply Unsigned.to_uint_nonnil in H.
  - destruct n; simpl; try discriminate.
    intros H; injection H as H. now apply Unsigned.to_uint_nonnil in H.
Qed.

Lemma decimal_inj (m n : Z) : decimal m = decimal n -> m = n.
Proof.
  intros H. apply (f_equal parse_decimal) in H.
  rewrite !parse_decimal_decimal in H. congruence.
Qed.

(** The definitions run. *)
Example format_two_conversions :
  format "%d%% of %d" [50; -8] = Some "50% of -8".
Proof. reflexivity. Qed.

Example format_missing_argument : format "%d and %d" [1] = None.
Proof. reflexivity. Qed.

Example decimal_limits :
  decimal INT_MIN = "-2147483648" /\ decimal INT_MAX = "2147483647" /\
  decimal 0 = "0".
Proof. repeat split. Qed.

Example lines_unfinished :
  lines ("ab" +:+ String LF "cd") = ["ab"; "cd"].
Proof. reflexivity. Qed.

Example main_writes :
  match main (init [true; true]) with
  | Ok code s => Some (code, lines (stdout s), allocs s, size (heap s))
  | _ => None
  end =
  Some (0, ["Drawing Rect with perimeter: 10"; "Drawing Circle with radius: 8"],
        [], 2%nat).
Proof. vm_compute. reflexivity. Qed.

Example main_without_memory :
  main (init []) = UB /\ main (init [true]) = UB /\
  main (init [false; true; true]) = UB.
Proof. repeat split. Qed.

(** ** Memory *)

Lemma malloc_ok_allocs (s : state) :
  malloc_ok s -> allocs s = true :: tail (allocs s).
Proof. unfold malloc_ok. destruct (allocs s) as [|[] ?]; simpl; congruence. Qed.

Lemma fresh_unused (h : gmap positive (list val)) : h !! fresh (dom h) = None.
Proof. apply not_elem_of_dom, is_fresh. Qed.

Lemma malloc_success (size : nat) (s : state) :
  malloc_ok s ->
  malloc size s =
    Ok (Loc (fresh (dom (heap s))))
       (set_allocs (tail (allocs s))
          (set_heap (<[fresh (dom (heap s)) := replicate size Vundef]> (heap s)) s)).
Proof.
  intros H. unfold malloc. rewrite (malloc_ok_allocs s H). reflexivity.
Qed.

Lemma malloc_failure (size : nat) (s : state) :
  ~ malloc_ok s -> malloc size s = Ok Null (set_allocs (tail (allocs s)) s).
Proof.
  unfold malloc_ok, malloc. destruct (allocs s) as [|[] ?]; simpl; intros H;
    [reflexivity | now destruct H | reflexivity].
Qed.

Lemma store_ok (l : positive) (ofs : nat) (v : val) (blk : list val) (s : state) :
  heap s !! l = Some blk -> (ofs < length blk)%nat ->
  store (Loc l) ofs v s = Ok tt (set_heap (<[l := <[ofs := v]> blk]> (heap s)) s).
Proof.
  intros Hl Hofs. unfold store. rewrite Hl. now rewrite decide_True.
Qed.

Lemma load_ok (l : positive) (ofs : nat) (v : val) (blk : list val) (s : state) :
  heap s !! l = Some blk -> blk !! ofs = Some v -> v <> Vundef ->
  load (Loc l) ofs s = Ok v s.
Proof.
  intros Hl Hofs Hv. unfold load. rewrite Hl, Hofs. now destruct v.
Qed.

(** Runs the two stores of a constructor on the block [malloc] returned. *)
Ltac layout :=
  unfold Rect_perimeter, Rect_base, sizeof_Rect, Circle_radius, Circle_base,
    sizeof_Circle, Figure_vtable, FigureVTable_draw, sizeof_Figure in *.

Ltac fill_block :=
  cbv beta iota;
  erewrite store_ok; [| apply lookup_insert_eq | layout; simpl; lia];
  cbv beta iota; unfold store_vtable;
  erewrite store_ok; [| apply lookup_insert_eq | layout; simpl; lia];
  unfold ret, with_object; layout; cbn; now rewrite !insert_insert_eq.

Lemma rect_new_ok (p : Z) (s : state) :
  malloc_ok s ->
  rect_new p s =
    Ok (Loc (fresh (dom (heap s)))) (with_object (draw (rect_vtable s)) p s).
Proof.
  intros H. unfold rect_new, bind, get_rect_vtable.
  rewrite (malloc_success _ _ H). fill_block.
Qed.

Lemma circle_new_ok (r : Z) (s : state) :
  malloc_ok s ->
  circle_new r s =
    Ok (Loc (fresh (dom (heap s)))) (with_object (draw (circle_vtable s)) r s).
Proof.
  intros H. unfold circle_new, bind, get_circle_vtable.
  rewrite (malloc_success _ _ H). fill_block.
Qed.

(** Without memory the constructor writes through the null pointer. *)
Lemma rect_new_no_memory (p : Z) (s : state) :
  ~ malloc_ok s -> rect_new p s = UB.
Proof.
  intros H. unfold rect_new. unfold bind at 1. now rewrite (malloc_failure _ _ H).
Qed.

Lemma circle_new_no_memory (r : Z) (s : state) :
  ~ malloc_ok s -> circle_new r s = UB.
Proof.
  intros H. unfold circle_new. unfold bind at 1. now rewrite (malloc_failure _ _ H).
Qed.

(** ** Drawing *)

Lemma draw_rect_ok (l : positive) (v : val) (n : Z) (s : state) :
  heap s !! l = Some [v; Vint n] ->
  draw_rect (Loc l) s = Ok tt (set_stdout (stdout s +:+ rect_line n) s).
Proof.
  intros Hl. unfold draw_rect, load_int, bind.
  rewrite (load_ok l Rect_perimeter (Vint n) _ s Hl); [| reflexivity | discriminate].
  unfold ret, printf. now rewrite format_rect.
Qed.

Lemma draw_circle_ok (l : positive) (v : val) (n : Z) (s : state) :
  heap s !! l = Some [v; Vint n] ->
  draw_circle (Loc l) s = Ok tt (set_stdout (stdout s +:+ circle_line n) s).
Proof.
  intros Hl. unfold draw_circle, load_int, bind.
  rewrite (load_ok l Circle_radius (Vint n) _ s Hl); [| reflexivity | discriminate].
  unfold ret, printf. now rewrite format_circle.
Qed.

(** The dispatcher calls the function the object's own slot names. *)
Lemma call_stuff_dispatch (s : state) (fig : pointer) (f : fn_ptr) (n : Z) :
  object_at s fig f n -> call_stuff fig s = call f fig s.
Proof.
  intros (l & -> & Hl). unfold call_stuff, load_fn, bind.
  now rewrite (load_ok l _ (Vfun f) _ s Hl).
Qed.

Lemma call_stuff_shape (s : state) (fig : pointer) (sh : shape) :
  is_shape s fig sh ->
  call_stuff fig s = Ok tt (set_stdout (stdout s +:+ line_of sh) s).
Proof.
  intros H. rewrite (call_stuff_dispatch _ _ _ _ H).
  destruct H as (l & -> & Hl).
  destruct sh; simpl in *; [eapply draw_rect_ok | eapply draw_circle_ok]; eauto.
Qed.

(** The rendering functions and the dispatcher only ever extend the output. *)
Lemma load_inv (p : pointer) (ofs : nat) (v : val) (s s' : state) :
  load p ofs s = Ok v s' -> s' = s.
Proof.
  unfold load. destruct p; [discriminate |].
  destruct (heap s !! l); [| discriminate].
  destruct (l0 !! ofs) as [[]|]; congruence.
Qed.

Lemma load_never_aborts (p : pointer) (ofs : nat) (s s' : state) :
  load p ofs s <> Aborted s'.
Proof.
  unfold load. destruct p; [discriminate |].
  destruct (heap s !! l); [| discriminate].
  destruct (l0 !! ofs) as [[]|]; congruence.
Qed.

Lemma draw_rect_inv (self : pointer) (s s' : state) :
  draw_rect self s = Ok tt s' ->
  exists n, s' = set_stdout (stdout s +:+ rect_line n) s.
Proof.
  unfold draw_rect, load_int, bind.
  destruct (load self Rect_perimeter s) as [v s1| |] eqn:E; [| discriminate..].
  apply load_inv in E as ->.
  destruct v; try discriminate. unfold ret, printf. rewrite format_rect.
  intros [= <-]. eauto.
Qed.

Lemma draw_circle_inv (self : pointer) (s s' : state) :
  draw_circle self s = Ok tt s' ->
  exists n, s' = set_stdout (stdout s +:+ circle_line n) s.
Proof.
  unfold draw_circle, load_int, bind.
  destruct (load self Circle_radius s) as [v s1| |] eqn:E; [| discriminate..].
  apply load_inv in E as ->.
  destruct v; try discriminate. unfold ret, printf. rewrite format_circle.
  intros [= <-]. eauto.
Qed.

Lemma call_stuff_inv (fig : pointer) (s s' : state) :
  call_stuff fig s = Ok tt s' ->
  exists text, s' = set_stdout (stdout s +:+ text) s.
Proof.
  unfold call_stuff, load_fn, bind.
  destruct (load fig _ s) as [v s1| |] eqn:E; [| discriminate..].
  apply load_inv in E as ->.
  destruct v as [| |[]]; try discriminate; unfold ret, call; intros H.
  - apply draw_rect_inv in H as [n ->]. eauto.
  - apply draw_circle_inv in H as [n ->]. eauto.
Qed.

(** ** What the operations keep *)

Lemma extends_refl (s : state) : extends s s.
Proof. now repeat split. Qed.

Lemma extends_trans (s1 s2 s3 : state) :
  extends s1 s2 -> extends s2 s3 -> extends s1 s3.
Proof.
  intros (H1 & H2 & H3) (H4 & H5 & H6). repeat split.
  - now transitivity (heap s2).
  - congruence.
  - congruence.
Qed.

Lemma extends_with_object (f : fn_ptr) (n : Z) (s : state) :
  extends s (with_object f n s).
Proof.
  repeat split. cbn. apply insert_subseteq, fresh_unused.
Qed.

Lemma extends_set_stdout (o : string) (s : state) : extends s (set_stdout o s).
Proof. now repeat split. Qed.

Lemma object_at_extends (s s' : state) (fig : pointer) (f : fn_ptr) (n : Z) :
  extends s s' -> object_at s fig f n -> object_at s' fig f n.
Proof.
  intros (Hh & _) (l & -> & Hl). exists l. split; [reflexivity |].
  eapply lookup_weaken; eauto.
Qed.

Lemma object_at_with_object (f : fn_ptr) (n : Z) (s : state) :
  object_at (with_object f n s) (Loc (fresh (dom (heap s)))) f n.
Proof. eexists. split; [reflexivity |]. cbn. apply lookup_insert_eq. Qed.

(** A constructor that returns has found memory. *)
Lemma rect_new_inv (p : Z) (fig : pointer) (s s' : state) :
  rect_new p s = Ok fig s' ->
  malloc_ok s /\ fig = Loc (fresh (dom (heap s))) /\
  s' = with_object (draw (rect_vtable s)) p s.
Proof.
  destruct (decide (malloc_ok s)) as [H|H].
  - rewrite (rect_new_ok p s H). intros [= <- <-]. auto.
  - now rewrite (rect_new_no_memory p s H).
Qed.

Lemma circle_new_inv (r : Z) (fig : pointer) (s s' : state) :
  circle_new r s = Ok fig s' ->
  malloc_ok s /\ fig = Loc (fresh (dom (heap s))) /\
  s' = with_object (draw (circle_vtable s)) r s.
Proof.
  destruct (decide (malloc_ok s)) as [H|H].
  - rewrite (circle_new_ok r s H). intros [= <- <-]. auto.
  - now rewrite (circle_new_no_memory r s H).
Qed.

Create HintDb frame discriminated.
#[local] Hint Resolve extends_refl extends_with_object extends_set_stdout : frame.

Lemma run_op_extends (o : op) (s s' : state) :
  run_op o s = Ok tt s' -> extends s s'.
Proof.
  destruct o; simpl; intros H.
  - unfold bind in H. destruct (rect_new perimeter s) eqn:E; try discriminate.
    injection H as <-. apply rect_new_inv in E as (_ & _ & ->). auto with frame.
  - unfold bind in H. destruct (circle_new radius s) eqn:E; try discriminate.
    injection H as <-. apply circle_new_inv in E as (_ & _ & ->). auto with frame.
  - apply call_stuff_inv in H as [t ->]. auto with frame.
  - apply draw_rect_inv in H as [n ->]. auto with frame.
  - apply draw_circle_inv in H as [n ->]. auto with frame.
Qed.

Lemma run_ops_extends (os : list op) (s s' : state) :
  run_ops os s = Ok tt s' -> extends s s'.
Proof.
  revert s. induction os as [|o os IH]; simpl; intros s H.
  - injection H as <-. auto with frame.
  - unfold bind in H. destruct (run_op o s) as [[] s1| |] eqn:E; try discriminate.
    eapply extends_trans; [eapply run_op_extends; eauto | eauto].
Qed.

Lemma tables_intact_init (oracle : list bool) : tables_intact (init oracle).
Proof. now split. Qed.

Lemma tables_intact_extends (s s' : state) :
  extends s s' -> tables_intact s -> tables_intact s'.
Proof. intros (_ & H1 & H2) [H3 H4]. split; congruence. Qed.

Lemma reachable_tables_intact (s : state) : reachable s -> tables_intact s.
Proof.
  induction 1 as [oracle | s s' o _ IH Hstep].
  - apply tables_intact_init.
  - eapply tables_intact_extends; [eapply run_op_extends |]; eauto.
Qed.

Lemma heap_wf_with_object (sh : shape) (s : state) :
  heap_wf s -> heap_wf (with_object (draw_fn sh) (field sh) s).
Proof.
  intros Hwf l blk. cbn. rewrite lookup_insert.
  case_decide; [intros [= <-]; eauto | apply Hwf].
Qed.

Lemma reachable_heap_wf (s : state) : reachable s -> heap_wf s.
Proof.
  induction 1 as [oracle | s s' o Hs IH Hstep].
  - intros l blk. cbn. now rewrite lookup_empty.
  - pose proof (reachable_tables_intact s Hs) as [Hr Hc].
    destruct o; simpl in Hstep.
    + unfold bind in Hstep.
      destruct (rect_new perimeter s) eqn:E; try discriminate.
      injection Hstep as <-. apply rect_new_inv in E as (_ & _ & ->).
      rewrite Hr. apply (heap_wf_with_object (Rectangle perimeter)), IH.
    + unfold bind in Hstep.
      destruct (circle_new radius s) eqn:E; try discriminate.
      injection Hstep as <-. apply circle_new_inv in E as (_ & _ & ->).
      rewrite Hc. apply (heap_wf_with_object (Circle radius)), IH.
    + apply call_stuff_inv in Hstep as [t ->]. exact IH.
    + apply draw_rect_inv in Hstep as [n ->]. exact IH.
    + apply draw_circle_inv in Hstep as [n ->]. exact IH.
Qed.

(** ** Lines of text *)

Lemma no_LF_app (a b : string) : no_LF a -> no_LF b -> no_LF (a +:+ b).
Proof.
  induction a as [|x a IH]; [easy |].
  rewrite append_cons. simpl. intros [Hx Ha] Hb. auto.
Qed.

Lemma lines_line (t rest : string) :
  no_LF t -> lines (t +:+ String LF rest) = t :: lines rest.
Proof.
  induction t as [|x t IH]; intros H.
  - change (EmptyString +:+ String LF rest) with (String LF rest).
    cbn [lines]. now rewrite decide_True.
  - destruct H as [Hx Ht]. rewrite append_cons. cbn [lines].
    rewrite decide_False by assumption. now rewrite (IH Ht).
Qed.

Lemma no_LF_digits (d : Decimal.uint) : no_LF (NilEmpty.string_of_uint d).
Proof. induction d; simpl; auto; split; auto; discriminate. Qed.

Lemma no_LF_decimal (n : Z) : no_LF (decimal n).
Proof.
  assert (Hu : forall d, no_LF (NilZero.string_of_uint d)).
  { intros d. destruct d; try apply no_LF_digits. simpl. split; [discriminate | exact I]. }
  unfold decimal. destruct (Z.to_int n); simpl.
  - apply Hu.
  - split; [discriminate | apply Hu].
Qed.

Lemma lines_rect_line (p : Z) (rest : string) :
  lines (rect_line p +:+ rest) =
    ("Drawing Rect with perimeter: " +:+ decimal p) :: lines rest.
Proof.
  unfold rect_line. rewrite <- (append_assoc _ (decimal p)), append_assoc.
  rewrite append_cons. change (EmptyString +:+ rest) with rest.
  apply (lines_line ("Drawing Rect with perimeter: " +:+ decimal p)).
  apply (no_LF_app "Drawing Rect with perimeter: " (decimal p));
    [| apply no_LF_decimal].
  simpl. repeat split; discriminate.
Qed.

Lemma lines_circle_line (r : Z) (rest : string) :
  lines (circle_line r +:+ rest) =
    ("Drawing Circle with radius: " +:+ decimal r) :: lines rest.
Proof.
  unfold circle_line. rewrite <- (append_assoc _ (decimal r)), append_assoc.
  rewrite append_cons. change (EmptyString +:+ rest) with rest.
  apply (lines_line ("Drawing Circle with radius: " +:+ decimal r)).
  apply (no_LF_app "Drawing Circle with radius: " (decimal r));
    [| apply no_LF_decimal].
  simpl. repeat split; discriminate.
Qed.

Lemma rect_line_not_circle_line (p r : Z) : rect_line p <> circle_line r.
Proof. unfold rect_line, circle_line. discriminate. Qed.

(** ** Specifications of the constructors and of drawing *)

Lemma new_ok (sh : shape) (s : state) :
  malloc_ok s ->
  new sh s =
    Ok (Loc (fresh (dom (heap s))))
       (with_object (draw (table_of sh s)) (field sh) s).
Proof. destruct sh; simpl; [apply rect_new_ok | apply circle_new_ok]. Qed.

Lemma new_no_memory (sh : shape) (s : state) : ~ malloc_ok s -> new sh s = UB.
Proof. destruct sh; simpl; [apply rect_new_no_memory | apply circle_new_no_memory]. Qed.

Lemma table_of_intact (sh : shape) (s : state) :
  tables_intact s -> draw (table_of sh s) = draw_fn sh.
Proof. intros [Hr Hc]. destruct sh; simpl; [now rewrite Hr | now rewrite Hc]. Qed.

Lemma new_is_shape (sh : shape) (s : state) :
  tables_intact s -> malloc_ok s ->
  exists fig s1,
    new sh s = Ok fig s1 /\ is_shape s1 fig sh /\ extends s s1 /\
    stdout s1 = stdout s /\ allocs s1 = tail (allocs s).
Proof.
  intros Ht Hm. do 2 eexists. split; [apply (new_ok sh s Hm) |].
  rewrite (table_of_intact sh s Ht).
  split; [apply object_at_with_object |].
  split; [apply extends_with_object |]. now split.
Qed.

Lemma emits_call_stuff (s : state) (fig : pointer) (sh : shape) :
  is_shape s fig sh -> emits (call_stuff fig) s (line_of sh).
Proof. apply call_stuff_shape. Qed.

(** ** Sequences of shapes *)

Lemma mallocs_ok_S (n : nat) (s : state) :
  mallocs_ok (S n) s ->
  malloc_ok s /\ forall s1, allocs s1 = tail (allocs s) -> mallocs_ok n s1.
Proof.
  unfold mallocs_ok, malloc_ok. destruct (allocs s) as [|b rest]; simpl.
  - discriminate.
  - intros [= -> H]. split; [reflexivity |]. now intros s1 ->.
Qed.

Lemma new_all_spec (shs : list shape) (s : state) :
  tables_intact s -> mallocs_ok (length shs) s ->
  exists figs s1,
    new_all shs s = Ok figs s1 /\
    Forall2 (is_shape s1) figs shs /\
    extends s s1 /\ stdout s1 = stdout s.
Proof.
  revert s. induction shs as [|sh shs IH]; intros s Ht Hm.
  - exists [], s. repeat split; auto using extends_refl.
  - apply mallocs_ok_S in Hm as [Hm Hrest].
    destruct (new_is_shape sh s Ht Hm) as (fig & s1 & Hnew & Hsh & Hext & Hout & Hal).
    destruct (IH s1) as (figs & s2 & Hall & Hfigs & Hext2 & Hout2);
      [eapply tables_intact_extends; eauto | auto |].
    exists (fig :: figs), s2. simpl. unfold bind. rewrite Hnew, Hall.
    repeat split.
    + constructor; [| assumption]. eapply object_at_extends; eauto.
    + apply (extends_trans s s1 s2 Hext Hext2).
    + apply (extends_trans s s1 s2 Hext Hext2).
    + apply (extends_trans s s1 s2 Hext Hext2).
    + congruence.
Qed.

Lemma call_all_spec (figs : list pointer) (shs : list shape) (s : state) :
  Forall2 (is_shape s) figs shs ->
  emits (call_all figs) s (concat_lines (map line_of shs)).
Proof.
  unfold emits. revert figs s.
  induction shs as [|sh shs IH]; intros figs s H;
    inversion H as [|fig ? figs' ? Hfig Hrest]; subst.
  - simpl. unfold ret. now rewrite append_nil_r; destruct s.
  - simpl. unfold bind. rewrite (call_stuff_shape s fig sh Hfig).
    rewrite (IH figs' (set_stdout (stdout s +:+ line_of sh) s)).
    + cbn. now rewrite append_assoc.
    + eapply Forall2_impl; [exact Hrest |]. intros x y Hxy. exact Hxy.
Qed.

Lemma lines_concat_lines (shs : list shape) :
  lines (concat_lines (map line_of shs)) = map line_text shs.
Proof.
  induction shs as [|[p|r] shs IH]; [reflexivity | |];
    cbn [map concat_lines line_of line_text].
  - now rewrite lines_rect_line, IH.
  - now rewrite lines_circle_line, IH.
Qed.

(** ** No abnormal end *)

Lemma new_never_aborts (sh : shape) (s s1 : state) : new sh s <> Aborted s1.
Proof.
  destruct (decide (malloc_ok s)) as [H|H].
  - now rewrite (new_ok sh s H).
  - now rewrite (new_no_memory sh s H).
Qed.

Lemma draw_rect_never_aborts (self : pointer) (s s1 : state) :
  draw_rect self s <> Aborted s1.
Proof.
  unfold draw_rect, load_int, bind.
  destruct (load self Rect_perimeter s) as [v s2| |] eqn:E.
  - destruct v; unfold undefined, ret, printf; discriminate.
  - now apply load_never_aborts in E.
  - discriminate.
Qed.

Lemma draw_circle_never_aborts (self : pointer) (s s1 : state) :
  draw_circle self s <> Aborted s1.
Proof.
  unfold draw_circle, load_int, bind.
  destruct (load self Circle_radius s) as [v s2| |] eqn:E.
  - destruct v; unfold undefined, ret, printf; discriminate.
  - now apply load_never_aborts in E.
  - discriminate.
Qed.

Lemma call_stuff_never_aborts (fig : pointer) (s s1 : state) :
  call_stuff fig s <> Aborted s1.
Proof.
  unfold call_stuff, load_fn, bind.
  destruct (load fig _ s) as [v s2| |] eqn:E.
  - destruct v as [| |[]]; unfold undefined, ret, call; try discriminate.
    + apply draw_rect_never_aborts.
    + apply draw_circle_never_aborts.
  - now apply load_never_aborts in E.
  - discriminate.
Qed.

Lemma run_op_never_aborts (o : op) (s s1 : state) : run_op o s <> Aborted s1.
Proof.
  destruct o; simpl.
  - pose proof (new_never_aborts (Rectangle perimeter) s) as H. simpl in H.
    unfold bind. destruct (rect_new perimeter s) as [? ?|s0|];
      [discriminate | intros _; exact (H s0 eq_refl) | discriminate].
  - pose proof (new_never_aborts (Circle radius) s) as H. simpl in H.
    unfold bind. destruct (circle_new radius s) as [? ?|s0|];
      [discriminate | intros _; exact (H s0 eq_refl) | discriminate].
  - apply call_stuff_never_aborts.
  - apply draw_rect_never_aborts.
  - apply draw_circle_never_aborts.
Qed.

Lemma main_never_aborts (s s1 : state) : main s <> Aborted s1.
Proof.
  unfold main, bind.
  pose proof (new_never_aborts (Rectangle 10) s) as H1. simpl in H1.
  destruct (rect_new 10 s) as [rect sa|s0|];
    [| intros _; exact (H1 s0 eq_refl) | discriminate].
  pose proof (call_stuff_never_aborts rect sa) as H2.
  destruct (call_stuff rect sa) as [[] sb|s0|];
    [| intros _; exact (H2 s0 eq_refl) | discriminate].
  pose proof (new_never_aborts (Circle 8) sb) as H3. simpl in H3.
  destruct (circle_new 8 sb) as [circle sc|s0|];
    [| intros _; exact (H3 s0 eq_refl) | discriminate].
  pose proof (call_stuff_never_aborts circle sc) as H4.
  destruct (call_stuff circle sc) as [[] sd|s0|];
    [| intros _; exact (H4 s0 eq_refl) | discriminate].
  discriminate.
Qed.

(** * The properties the specification states *)

(** C2: for every integer [p], constructing a rectangle with [rect_new p]
    and drawing it through [call_stuff] writes one line,
    "Drawing Rect with perimeter: p": the text "Rect", the text
    "perimeter", and the numeral of [p], which reads back as [p].  The
    state is any in which the static tables hold their initialisers and
    the allocation succeeds. *)
Theorem rect_new_draw_line (p : Z) (s : state) :
  tables_intact s -> malloc_ok s ->
  exists fig s1,
    rect_new p s = Ok fig s1 /\
    stdout s1 = stdout s /\
    emits (call_stuff fig) s1 (rect_line p) /\
    lines (rect_line p) = ["Drawing Rect with perimeter: " +:+ decimal p] /\
    parse_decimal (decimal p) = Some p /\
    occurs_in "Rect" (rect_line p) /\
    occurs_in "perimeter" (rect_line p).
Proof.
  intros Ht Hm.
  destruct (new_is_shape (Rectangle p) s Ht Hm) as (fig & s1 & Hnew & Hsh & _ & Hout & _).
  exists fig, s1. repeat split; try assumption.
  - apply (emits_call_stuff s1 fig (Rectangle p) Hsh).
  - rewrite <- (append_nil_r (rect_line p)). apply lines_rect_line.
  - apply parse_decimal_decimal.
  - exists "Drawing ", (" with perimeter: " +:+ decimal p +:+ String LF EmptyString).
    reflexivity.
  - exists "Drawing Rect with ", (": " +:+ decimal p +:+ String LF EmptyString).
    reflexivity.
Qed.

Lemma rect_new_draw_line_witness :
  tables_intact (init [true]) /\ malloc_ok (init [true]) /\
  exists fig s1,
    rect_new (-7) (init [true]) = Ok fig s1 /\
    emits (call_stuff fig) s1 (rect_line (-7)) /\
    lines (rect_line (-7)) = ["Drawing Rect with perimeter: -7"].
Proof.
  split; [split; reflexivity |]. split; [reflexivity |].
  destruct (rect_new_draw_line (-7) (init [true])) as (fig & s1 & H1 & _ & H2 & H3 & _);
    [split; reflexivity | reflexivity |].
  exists fig, s1. auto.
Defined.

(** C3: for every integer [r], constructing a circle with [circle_new r]
    and drawing it through [call_stuff] writes one line,
    "Drawing Circle with radius: r": the text "Circle", the text "radius",
    and the numeral of [r], which reads back as [r].  The state is any in
    which the static tables hold their initialisers and the allocation
    succeeds. *)
Theorem circle_new_draw_line (r : Z) (s : state) :
  tables_intact s -> malloc_ok s ->
  exists fig s1,
    circle_new r s = Ok fig s1 /\
    stdout s1 = stdout s /\
    emits (call_stuff fig) s1 (circle_line r) /\
    lines (circle_line r) = ["Drawing Circle with radius: " +:+ decimal r] /\
    parse_decimal (decimal r) = Some r /\
    occurs_in "Circle" (circle_line r) /\
    occurs_in "radius" (circle_line r).
Proof.
  intros Ht Hm.
  destruct (new_is_shape (Circle r) s Ht Hm) as (fig & s1 & Hnew & Hsh & _ & Hout & _).
  exists fig, s1. repeat split; try assumption.
  - apply (emits_call_stuff s1 fig (Circle r) Hsh).
  - rewrite <- (append_nil_r (circle_line r)). apply lines_circle_line.
  - apply parse_decimal_decimal.
  - exists "Drawing ", (" with radius: " +:+ decimal r +:+ String LF EmptyString).
    reflexivity.
  - exists "Drawing Circle with ", (": " +:+ decimal r +:+ String LF EmptyString).
    reflexivity.
Qed.

Lemma circle_new_draw_line_witness :
  tables_intact (init [true]) /\ malloc_ok (init [true]) /\
  exists fig s1,
    circle_new 3 (init [true]) = Ok fig s1 /\
    emits (call_stuff fig) s1 (circle_line 3) /\
    lines (circle_line 3) = ["Drawing Circle with radius: 3"].
Proof.
  split; [split; reflexivity |]. split; [reflexivity |].
  destruct (circle_new_draw_line 3 (init [true])) as (fig & s1 & H1 & _ & H2 & H3 & _);
    [split; reflexivity | reflexivity |].
  exists fig, s1. auto.
Defined.

(** C1: drawing through the common interface runs the code of the actual
    variant.  For every list of shapes built in order by the constructors,
    [call_stuff] on each figure calls that shape's own function and writes
    that shape's own line, and drawing them all writes the shapes' lines in
    the order of the list, one line per shape; a rectangle's line is never a
    circle's line.  The state is any in which the static tables hold their
    initialisers and the allocations succeed. *)
Theorem dispatch_by_variant (shs : list shape) (s : state) :
  tables_intact s -> mallocs_ok (length shs) s ->
  exists figs s1,
    new_all shs s = Ok figs s1 /\
    Forall2 (fun fig sh =>
               call_stuff fig s1 = call (draw_fn sh) fig s1 /\
               emits (call_stuff fig) s1 (line_of sh)) figs shs /\
    emits (call_all figs) s1 (concat_lines (map line_of shs)) /\
    lines (concat_lines (map line_of shs)) = map line_text shs /\
    (forall p r, rect_line p <> circle_line r).
Proof.
  intros Ht Hm.
  destruct (new_all_spec shs s Ht Hm) as (figs & s1 & Hall & Hfigs & _ & _).
  exists figs, s1. split; [assumption |]. split; [| split; [| split]].
  - eapply Forall2_impl; [exact Hfigs |]. intros fig sh Hsh. split.
    + apply (call_stuff_dispatch _ _ _ _ Hsh).
    + apply (emits_call_stuff _ _ _ Hsh).
  - apply (call_all_spec figs shs s1 Hfigs).
  - apply lines_concat_lines.
  - apply rect_line_not_circle_line.
Qed.

Lemma dispatch_by_variant_witness :
  tables_intact (init [true; true; true]) /\
  mallocs_ok 3 (init [true; true; true]) /\
  exists figs s1,
    new_all [Circle 1; Rectangle 2; Circle (-3)] (init [true; true; true]) = Ok figs s1 /\
    emits (call_all figs) s1
      (concat_lines [circle_line 1; rect_line 2; circle_line (-3)]).
Proof.
  split; [split; reflexivity |]. split; [reflexivity |].
  destruct (dispatch_by_variant [Circle 1; Rectangle 2; Circle (-3)] (init [true; true; true]))
    as (figs & s1 & H1 & _ & H2 & _); [split; reflexivity | reflexivity |].
  exists figs, s1. auto.
Defined.

(** C4: the driver.  Started in the initial state with memory for its two
    objects, [main] returns 0 and has written exactly two lines, first the
    rectangle's, "Drawing Rect with perimeter: 10", then the circle's,
    "Drawing Circle with radius: 8". *)
Theorem main_output (oracle : list bool) :
  mallocs_ok 2 (init oracle) ->
  exists s,
    main (init oracle) = Ok 0 s /\
    stdout s =
      "Drawing Rect with perimeter: 10" +:+ String LF EmptyString +:+
      "Drawing Circle with radius: 8" +:+ String LF EmptyString /\
    lines (stdout s) =
      ["Drawing Rect with perimeter: 10"; "Drawing Circle with radius: 8"].
Proof.
  unfold mallocs_ok. simpl. intros H.
  destruct oracle as [|a [|b rest]]; try discriminate.
  injection H as -> ->.
  eexists. split; [vm_compute; reflexivity |]. split; reflexivity.
Qed.

Lemma main_output_witness :
  mallocs_ok 2 (init [true; true]) /\
  exists s,
    main (init [true; true]) = Ok 0 s /\
    lines (stdout s) =
      ["Drawing Rect with perimeter: 10"; "Drawing Circle with radius: 8"].
Proof.
  split; [reflexivity |].
  destruct (main_output [true; true]) as (s & H1 & _ & H2); [reflexivity |].
  exists s. auto.
Defined.

(** C5: the pairing of an instance with its variant's behaviour lasts for
    the instance's life.  An object built by [rect_new] (by [circle_new]) in
    a reachable state carries [draw_rect] ([draw_circle]) in its table slot,
    and after any further sequence of the program's operations it still
    carries that function and that number and no other, so that
    [call_stuff] calls that function and writes the variant's line. *)
Theorem pairing_for_life (sh : shape) (s : state) :
  reachable s -> malloc_ok s ->
  exists fig s1,
    new sh s = Ok fig s1 /\
    forall os s2, run_ops os s1 = Ok tt s2 ->
      is_shape s2 fig sh /\
      (forall f n, object_at s2 fig f n -> f = draw_fn sh /\ n = field sh) /\
      call_stuff fig s2 = call (draw_fn sh) fig s2 /\
      emits (call_stuff fig) s2 (line_of sh).
Proof.
  intros Hr Hm. pose proof (reachable_tables_intact s Hr) as Ht.
  destruct (new_is_shape sh s Ht Hm) as (fig & s1 & Hnew & Hsh & _).
  exists fig, s1. split; [assumption |]. intros os s2 Hrun.
  assert (Hsh2 : is_shape s2 fig sh).
  { eapply object_at_extends; [eapply run_ops_extends |]; eauto. }
  split; [assumption |]. split; [| split].
  - intros f n (l & Hfig & Hl). destruct Hsh2 as (l' & Hfig' & Hl').
    assert (l = l') by congruence. subst l'. rewrite Hl in Hl'.
    injection Hl' as -> ->. auto.
  - apply (call_stuff_dispatch _ _ _ _ Hsh2).
  - apply (emits_call_stuff _ _ _ Hsh2).
Qed.

Lemma pairing_for_life_witness :
  reachable (init [true; true]) /\ malloc_ok (init [true; true]) /\
  exists fig s1,
    new (Rectangle 4) (init [true; true]) = Ok fig s1 /\
    forall s2, run_ops [NewCircle 9; CallStuff fig; DrawCircle fig] s1 = Ok tt s2 ->
      emits (call_stuff fig) s2 (rect_line 4).
Proof.
  split; [apply reachable_init |]. split; [reflexivity |].
  destruct (pairing_for_life (Rectangle 4) (init [true; true]))
    as (fig & s1 & H1 & H2); [apply reachable_init | reflexivity |].
  exists fig, s1. split; [assumption |].
  intros s2 Hrun. apply (H2 _ _ Hrun).
Defined.

(** C6: drawing does not touch the instance.  For every instance of either
    variant, a draw through [call_stuff] succeeds, leaves the heap (the
    instance's table slot and number with it) and the static tables as they
    were, and only appends the instance's line to the output; a second draw
    appends the same line again. *)
Theorem draw_keeps_instance (s : state) (fig : pointer) (sh : shape) :
  is_shape s fig sh ->
  exists s1 s2,
    call_stuff fig s = Ok tt s1 /\
    call_stuff fig s1 = Ok tt s2 /\
    call (draw_fn sh) fig s = Ok tt s1 /\
    heap s1 = heap s /\
    rect_vtable s1 = rect_vtable s /\
    circle_vtable s1 = circle_vtable s /\
    is_shape s1 fig sh /\
    stdout s1 = stdout s +:+ line_of sh /\
    stdout s2 = stdout s1 +:+ line_of sh.
Proof.
  intros Hsh.
  pose proof (call_stuff_shape s fig sh Hsh) as H1.
  assert (Hsh1 : is_shape (set_stdout (stdout s +:+ line_of sh) s) fig sh)
    by exact Hsh.
  pose proof (call_stuff_shape _ fig sh Hsh1) as H2.
  do 2 eexists. split; [exact H1 |]. split; [exact H2 |].
  split; [| now repeat split].
  now rewrite <- (call_stuff_dispatch _ _ _ _ Hsh).
Qed.

Lemma draw_keeps_instance_witness :
  is_shape (with_object Fn_draw_circle 8 (init [true])) (Loc 1) (Circle 8) /\
  exists s1 s2,
    call_stuff (Loc 1) (with_object Fn_draw_circle 8 (init [true])) = Ok tt s1 /\
    call_stuff (Loc 1) s1 = Ok tt s2 /\
    stdout s1 = circle_line 8 /\
    stdout s2 = circle_line 8 +:+ circle_line 8.
Proof.
  assert (H : is_shape (with_object Fn_draw_circle 8 (init [true])) (Loc 1) (Circle 8)).
  { exists 1%positive. split; reflexivity. }
  split; [exact H |].
  destruct (draw_keeps_instance _ _ _ H) as (s1 & s2 & H1 & H2 & _ & _ & _ & _ & _ & H3 & H4).
  exists s1, s2. repeat split; try assumption.
  now rewrite H4, H3.
Defined.

(** C7: the constructors take any integer.  Whatever the argument (zero and
    negative numbers too) the constructor returns an object holding that
    very number, and drawing it writes the variant's line with the number's
    numeral, which reads back as the number and is no other number's
    numeral: "0" for zero, a minus sign and the numeral of [n] for [- n].
    Nothing but the allocation decides whether the constructor succeeds. *)
Theorem constructors_permissive (sh : shape) (s : state) :
  tables_intact s -> malloc_ok s ->
  exists fig s1,
    new sh s = Ok fig s1 /\
    is_shape s1 fig sh /\
    emits (call_stuff fig) s1 (line_of sh) /\
    line_of sh = line_text sh +:+ String LF EmptyString /\
    parse_decimal (decimal (field sh)) = Some (field sh) /\
    (forall m, decimal m = decimal (field sh) -> m = field sh) /\
    decimal 0 = "0" /\
    (forall n, 0 < n -> decimal (- n) = String "-" (decimal n)).
Proof.
  intros Ht Hm.
  destruct (new_is_shape sh s Ht Hm) as (fig & s1 & Hnew & Hsh & _).
  exists fig, s1. split; [assumption |]. split; [assumption |].
  split; [apply (emits_call_stuff _ _ _ Hsh) |].
  split; [| split; [apply parse_decimal_decimal | split; [| split; [reflexivity |]]]].
  - destruct sh; unfold line_of, line_text, rect_line, circle_line;
      now rewrite append_assoc.
  - intros m. apply decimal_inj.
  - intros [|n|n] Hn; try lia. reflexivity.
Qed.

Lemma constructors_permissive_witness :
  tables_intact (init [true]) /\ malloc_ok (init [true]) /\
  exists fig s1,
    new (Circle INT_MIN) (init [true]) = Ok fig s1 /\
    emits (call_stuff fig) s1
      ("Drawing Circle with radius: -2147483648" +:+ String LF EmptyString).
Proof.
  split; [split; reflexivity |]. split; [reflexivity |].
  destruct (constructors_permissive (Circle INT_MIN) (init [true]))
    as (fig & s1 & H1 & _ & H2 & _); [split; reflexivity | reflexivity |].
  exists fig, s1. split; [assumption |]. exact H2.
Defined.

(** C8, as the code has it: drawing cannot fail, allocation failure is the
    one failure, and it is unchecked.  Drawing an instance always succeeds,
    and in a reachable state so does drawing any live object; a constructor
    fails exactly when [malloc] returns the null pointer, and what follows
    is the write through that pointer, undefined behaviour; no function of
    the program ever ends the process abnormally. *)
Theorem error_model :
  (forall s fig sh, is_shape s fig sh -> exists s1, call_stuff fig s = Ok tt s1) /\
  (forall s l, reachable s -> is_Some (heap s !! l) ->
     exists s1, call_stuff (Loc l) s = Ok tt s1) /\
  (forall sh s, new sh s = UB <-> ~ malloc_ok s) /\
  (forall sh s, malloc_ok s -> exists fig s1, new sh s = Ok fig s1) /\
  (forall o s s1, run_op o s <> Aborted s1) /\
  (forall s s1, main s <> Aborted s1).
Proof.
  repeat split.
  - intros s fig sh H. eexists. apply (call_stuff_shape s fig sh H).
  - intros s l Hr [blk Hl].
    destruct (reachable_heap_wf s Hr l blk Hl) as [sh ->].
    eexists. apply (call_stuff_shape s (Loc l) sh). now exists l.
  - intros H Hm. rewrite (new_ok sh s Hm) in H. discriminate.
  - apply new_no_memory.
  - intros sh s Hm. do 2 eexists. apply (new_ok sh s Hm).
  - apply run_op_never_aborts.
  - apply main_never_aborts.
Qed.

(** C8, as the claim words it, fails where it has allocation failure end
    the process: with no memory [rect_new] and [circle_new] write through
    the null pointer, and neither they nor [main] abort. *)
Lemma allocation_failure_is_not_an_abort :
  rect_new 10 (init []) = UB /\
  circle_new 8 (init [false]) = UB /\
  main (init []) = UB /\
  ~ (exists s1, rect_new 10 (init []) = Aborted s1).
Proof.
  repeat split; try reflexivity.
  intros [s1 H]. vm_compute in H. discriminate.
Qed.

(** C9: the dispatch record is held by value.  A constructor copies the
    entry of the static table, as it is at that moment, into the new
    object; whatever is written to either static table afterwards, the
    object keeps the copied entry and [call_stuff] on it calls the copied
    function (with the initial tables: the variant's own, writing the
    variant's line).  An object built after such a write, memory allowing,
    carries the new entry. *)
Theorem vtable_copied_by_value (sh : shape) (s : state) (t t' : FigureVTable) :
  malloc_ok s ->
  exists fig s1,
    new sh s = Ok fig s1 /\
    object_at s1 fig (draw (table_of sh s)) (field sh) /\
    object_at (set_rect_vtable t (set_circle_vtable t' s1)) fig
      (draw (table_of sh s)) (field sh) /\
    call_stuff fig (set_rect_vtable t (set_circle_vtable t' s1)) =
      call (draw (table_of sh s)) fig (set_rect_vtable t (set_circle_vtable t' s1)) /\
    (tables_intact s ->
     emits (call_stuff fig) (set_rect_vtable t (set_circle_vtable t' s1)) (line_of sh)) /\
    (malloc_ok s1 ->
     exists fig2 s2,
       new sh (set_rect_vtable t (set_circle_vtable t' s1)) = Ok fig2 s2 /\
       object_at s2 fig2
         (draw (match sh with Rectangle _ => t | Circle _ => t' end)) (field sh)).
Proof.
  intros Hm. do 2 eexists. split; [apply (new_ok sh s Hm) |].
  set (s1 := with_object (draw (table_of sh s)) (field sh) s).
  set (fig := Loc (fresh (dom (heap s)))).
  assert (H1 : object_at s1 fig (draw (table_of sh s)) (field sh))
    by apply object_at_with_object.
  assert (H2 : object_at (set_rect_vtable t (set_circle_vtable t' s1)) fig
                 (draw (table_of sh s)) (field sh)) by exact H1.
  split; [exact H1 |]. split; [exact H2 |].
  split; [apply (call_stuff_dispatch _ _ _ _ H2) |]. split.
  - intros Ht. apply emits_call_stuff. unfold is_shape.
    now rewrite <- (table_of_intact sh s Ht).
  - intros Hm1.
    assert (Hm2 : malloc_ok (set_rect_vtable t (set_circle_vtable t' s1)))
      by exact Hm1.
    do 2 eexists. split; [apply (new_ok sh _ Hm2) |].
    destruct sh; apply object_at_with_object.
Qed.

Lemma vtable_copied_by_value_witness :
  malloc_ok (init [true; true]) /\
  exists fig s1,
    new (Rectangle 10) (init [true; true]) = Ok fig s1 /\
    emits (call_stuff fig)
      (set_rect_vtable {| draw := Fn_draw_circle |}
         (set_circle_vtable {| draw := Fn_null |} s1))
      (rect_line 10) /\
    exists fig2 s2,
      new (Rectangle 10)
        (set_rect_vtable {| draw := Fn_draw_circle |}
           (set_circle_vtable {| draw := Fn_null |} s1)) = Ok fig2 s2 /\
      object_at s2 fig2 Fn_draw_circle 10.
Proof.
  split; [reflexivity |].
  destruct (vtable_copied_by_value (Rectangle 10) (init [true; true])
              {| draw := Fn_draw_circle |} {| draw := Fn_null |})
    as (fig & s1 & H1 & _ & _ & _ & H2 & H3); [reflexivity |].
  exists fig, s1. split; [assumption |]. split.
  - apply H2. split; reflexivity.
  - apply H3. apply rect_new_inv in H1 as (_ & _ & ->). reflexivity.
Defined.

(** C10: what a draw writes is decided by the number stored in the
    receiver.  The rendering functions write the same text for any two
    objects holding the same number, in whatever states; and two instances
    of one variant built with equal arguments, in any two states with the
    initial tables and memory to allocate, write the same line when drawn,
    at once or after any further operations of the program. *)
Theorem draw_deterministic (sh : shape) (s s' : state) :
  tables_intact s -> tables_intact s' -> malloc_ok s -> malloc_ok s' ->
  (forall sa sb l l' v v' n,
     heap sa !! l = Some [v; Vint n] -> heap sb !! l' = Some [v'; Vint n] ->
     exists text,
       emits (call (draw_fn sh) (Loc l)) sa text /\
       emits (call (draw_fn sh) (Loc l')) sb text) /\
  exists fig s1 fig' s1',
    new sh s = Ok fig s1 /\ new sh s' = Ok fig' s1' /\
    forall os os' s2 s2',
      run_ops os s1 = Ok tt s2 -> run_ops os' s1' = Ok tt s2' ->
      exists text,
        emits (call_stuff fig) s2 text /\ emits (call_stuff fig') s2' text.
Proof.
  intros Ht Ht' Hm Hm'. split.
  - intros sa sb l l' v v' n Hl Hl'. destruct sh; simpl.
    + exists (rect_line n). split; eapply draw_rect_ok; eauto.
    + exists (circle_line n). split; eapply draw_circle_ok; eauto.
  - destruct (new_is_shape sh s Ht Hm) as (fig & s1 & Hnew & Hsh & _).
    destruct (new_is_shape sh s' Ht' Hm') as (fig' & s1' & Hnew' & Hsh' & _).
    exists fig, s1, fig', s1'. split; [assumption |]. split; [assumption |].
    intros os os' s2 s2' Hrun Hrun'. exists (line_of sh). split.
    + apply emits_call_stuff.
      eapply object_at_extends; [eapply run_ops_extends |]; eauto.
    + apply emits_call_stuff.
      eapply object_at_extends; [eapply run_ops_extends |]; eauto.
Qed.

Lemma draw_deterministic_witness :
  tables_intact (init [true]) /\
  tables_intact (with_object Fn_draw_rect 1 (init [true; true])) /\
  malloc_ok (init [true]) /\
  malloc_ok (with_object Fn_draw_rect 1 (init [true; true])) /\
  exists fig s1 fig' s1',
    new (Circle 8) (init [true]) = Ok fig s1 /\
    new (Circle 8) (with_object Fn_draw_rect 1 (init [true; true])) = Ok fig' s1' /\
    exists text,
      emits (call_stuff fig) s1 text /\ emits (call_stuff fig') s1' text.
Proof.
  split; [split; reflexivity |]. split; [split; reflexivity |].
  split; [reflexivity |]. split; [reflexivity |].
  destruct (draw_deterministic (Circle 8) (init [true])
              (with_object Fn_draw_rect 1 (init [true; true])))
    as (_ & fig & s1 & fig' & s1' & H1 & H2 & H3);
    [split; reflexivity | split; reflexivity | reflexivity | reflexivity |].
  exists fig, s1, fig', s1'. split; [assumption |]. split; [assumption |].
  apply (H3 [] [] s1 s1'); reflexivity.
Defined.

(** * Further properties of the code *)

(** ** Reads, in full *)

Lemma load_ok_inv (p : pointer) (ofs : nat) (v : val) (s s' : state) :
  load p ofs s = Ok v s' ->
  exists l blk,
    p = Loc l /\ heap s !! l = Some blk /\ blk !! ofs = Some v /\
    v <> Vundef /\ s' = s.
Proof.
  unfold load. destruct p as [|l]; [discriminate |].
  destruct (heap s !! l) as [blk|] eqn:Hl; [| discriminate].
  destruct (blk !! ofs) as [[]|] eqn:Hofs; try discriminate;
    intros [= <- <-]; exists l, blk; repeat split; auto; discriminate.
Qed.

Lemma draw_rect_at (l : positive) (blk : list val) (n : Z) (s : state) :
  heap s !! l = Some blk -> blk !! Rect_perimeter = Some (Vint n) ->
  emits (draw_rect (Loc l)) s (rect_line n).
Proof.
  intros Hl Hn. unfold emits, draw_rect, load_int, bind.
  rewrite (load_ok l Rect_perimeter (Vint n) blk s Hl Hn); [| discriminate].
  unfold ret, printf. now rewrite format_rect.
Qed.

Lemma draw_circle_at (l : positive) (blk : list val) (n : Z) (s : state) :
  heap s !! l = Some blk -> blk !! Circle_radius = Some (Vint n) ->
  emits (draw_circle (Loc l)) s (circle_line n).
Proof.
  intros Hl Hn. unfold emits, draw_circle, load_int, bind.
  rewrite (load_ok l Circle_radius (Vint n) blk s Hl Hn); [| discriminate].
  unfold ret, printf. now rewrite format_circle.
Qed.

Lemma draw_rect_defined (self : pointer) (s : state) :
  draw_rect self s <> UB ->
  exists l blk n,
    self = Loc l /\ heap s !! l = Some blk /\
    blk !! Rect_perimeter = Some (Vint n).
Proof.
  unfold draw_rect, load_int, bind.
  destruct (load self Rect_perimeter s) as [v s1|s1|] eqn:E.
  - apply load_ok_inv in E as (l & blk & -> & Hl & Hofs & _ & ->).
    destruct v as [|n|f]; unfold undefined;
      [intros H; now destruct H | intros _ | intros H; now destruct H].
    exists l, blk, n. auto.
  - now apply load_never_aborts in E.
  - congruence.
Qed.

Lemma draw_circle_defined (self : pointer) (s : state) :
  draw_circle self s <> UB ->
  exists l blk n,
    self = Loc l /\ heap s !! l = Some blk /\
    blk !! Circle_radius = Some (Vint n).
Proof.
  unfold draw_circle, load_int, bind.
  destruct (load self Circle_radius s) as [v s1|s1|] eqn:E.
  - apply load_ok_inv in E as (l & blk & -> & Hl & Hofs & _ & ->).
    destruct v as [|n|f]; unfold undefined;
      [intros H; now destruct H | intros _ | intros H; now destruct H].
    exists l, blk, n. auto.
  - now apply load_never_aborts in E.
  - congruence.
Qed.

(** X1: the rendering functions read the number of the object and nothing
    else.  On a pointer to a live block whose second slot holds an [int],
    [draw_rect] appends the rectangle's line for that number and
    [draw_circle] the circle's, whatever the first slot holds and whichever
    constructor built the block; the state is otherwise unchanged.  On
    every other pointer (null, not live, a block without an [int] there)
    both have undefined behaviour. *)
Theorem renderers_read_only_the_number (self : pointer) (s : state) :
  (forall l blk n,
     self = Loc l -> heap s !! l = Some blk -> blk !! 1%nat = Some (Vint n) ->
     emits (draw_rect self) s (rect_line n) /\
     emits (draw_circle self) s (circle_line n)) /\
  (draw_rect self s <> UB ->
   exists l blk n,
     self = Loc l /\ heap s !! l = Some blk /\ blk !! 1%nat = Some (Vint n)) /\
  (draw_circle self s <> UB ->
   exists l blk n,
     self = Loc l /\ heap s !! l = Some blk /\ blk !! 1%nat = Some (Vint n)).
Proof.
  split; [| split].
  - intros l blk n -> Hl Hn. split.
    + apply (draw_rect_at l blk n s Hl Hn).
    + apply (draw_circle_at l blk n s Hl Hn).
  - apply draw_rect_defined.
  - apply draw_circle_defined.
Qed.

(** X2: when the dispatcher is defined.  [call_stuff] on a pointer to a
    live block whose first slot holds a function pointer other than null and
    whose second slot holds an [int] appends the line of that function for
    that number and changes nothing else; on every other pointer (null, not
    live, a block not yet filled) it has undefined behaviour. *)
Theorem call_stuff_defined (fig : pointer) (s : state) :
  (forall l blk f n,
     fig = Loc l -> heap s !! l = Some blk ->
     blk !! 0%nat = Some (Vfun f) -> blk !! 1%nat = Some (Vint n) ->
     f <> Fn_null ->
     emits (call_stuff fig) s (fn_line f n)) /\
  (call_stuff fig s <> UB ->
   exists l blk f n,
     fig = Loc l /\ heap s !! l = Some blk /\
     blk !! 0%nat = Some (Vfun f) /\ blk !! 1%nat = Some (Vint n) /\
     f <> Fn_null).
Proof.
  split.
  - intros l blk f n -> Hl Hf Hn Hnull. unfold emits, call_stuff, load_fn, bind.
    rewrite (load_ok l (Figure_vtable + FigureVTable_draw) (Vfun f) blk s Hl Hf);
      [| discriminate].
    destruct f; [now destruct Hnull | |]; unfold ret, call, fn_line.
    + apply (draw_rect_at l blk n s Hl Hn).
    + apply (draw_circle_at l blk n s Hl Hn).
  - unfold call_stuff, load_fn, bind.
    destruct (load fig _ s) as [v s1|s1|] eqn:E.
    + apply load_ok_inv in E as (l & blk & -> & Hl & Hf & _ & ->).
      destruct v as [|n|f]; unfold undefined, ret;
        [intros H; now destruct H | intros H; now destruct H |].
      destruct f; unfold call, undefined; [intros H; now destruct H | |]; intros H.
      * apply draw_rect_defined in H as (l' & blk' & n & [= <-] & Hl' & Hn).
        rewrite Hl in Hl'. injection Hl' as <-.
        exists l, blk, Fn_draw_rect, n. repeat split; auto; discriminate.
      * apply draw_circle_defined in H as (l' & blk' & n & [= <-] & Hl' & Hn).
        rewrite Hl in Hl'. injection Hl' as <-.
        exists l, blk, Fn_draw_circle, n. repeat split; auto; discriminate.
    + now apply load_never_aborts in E.
    + congruence.
Qed.

(** ** Objects are only ever added *)

Lemma size_with_object (f : fn_ptr) (n : Z) (s : state) :
  size (heap (with_object f n s)) = S (size (heap s)).
Proof. cbn. apply map_size_insert_None, fresh_unused. Qed.

Lemma run_op_size (o : op) (s s' : state) :
  run_op o s = Ok tt s' ->
  size (heap s') = (size (heap s) + constructions [o])%nat.
Proof.
  destruct o; simpl; intros H.
  - unfold bind in H. destruct (rect_new perimeter s) eqn:E; try discriminate.
    injection H as <-. apply rect_new_inv in E as (_ & _ & ->).
    rewrite size_with_object. lia.
  - unfold bind in H. destruct (circle_new radius s) eqn:E; try discriminate.
    injection H as <-. apply circle_new_inv in E as (_ & _ & ->).
    rewrite size_with_object. lia.
  - apply call_stuff_inv in H as [t ->]. cbn. lia.
  - apply draw_rect_inv in H as [n ->]. cbn. lia.
  - apply draw_circle_inv in H as [n ->]. cbn. lia.
Qed.

Lemma constructions_cons (o : op) (os : list op) :
  constructions (o :: os) = (constructions [o] + constructions os)%nat.
Proof. simpl. lia. Qed.

Lemma draws_cons (o : op) (os : list op) :
  draws (o :: os) = (draws [o] + draws os)%nat.
Proof. simpl. lia. Qed.

(** X3: the program only ever adds objects.  After any sequence of its
    operations every block that was live is still live with the same
    contents, the static tables are unchanged, and the heap has grown by
    exactly one block per constructor call: nothing is freed, moved or
    overwritten. *)
Theorem operations_only_add_objects (os : list op) (s s' : state) :
  run_ops os s = Ok tt s' ->
  heap s ⊆ heap s' /\
  rect_vtable s' = rect_vtable s /\
  circle_vtable s' = circle_vtable s /\
  size (heap s') = (size (heap s) + constructions os)%nat.
Proof.
  intros H. destruct (run_ops_extends os s s' H) as (H1 & H2 & H3).
  repeat split; try assumption. clear H1 H2 H3. revert s H.
  induction os as [|o os IH]; intros s H.
  - injection H as <-. simpl. lia.
  - simpl in H. unfold bind in H.
    destruct (run_op o s) as [[] s1| |] eqn:E; try discriminate.
    rewrite (IH s1 H), (run_op_size o s s1 E), (constructions_cons o os). lia.
Qed.

Lemma operations_only_add_objects_witness :
  exists s',
    run_ops [NewRect 3; CallStuff (Loc 1); NewCircle 4; DrawRect (Loc 2)]
      (init [true; true]) = Ok tt s' /\
    size (heap s') = 2%nat /\
    heap s' !! 1%positive = Some [Vfun Fn_draw_rect; Vint 3].
Proof.
  eexists. split; [vm_compute; reflexivity |].
  match goal with |- size (heap ?s1) = _ /\ _ =>
    destruct (operations_only_add_objects
                [NewRect 3; CallStuff (Loc 1); NewCircle 4; DrawRect (Loc 2)]
                (init [true; true]) s1) as (_ & _ & _ & H);
      [vm_compute; reflexivity |]
  end.
  split; [exact H | reflexivity].
Defined.

(** ** One line per draw *)

Lemma call_stuff_inv_line (fig : pointer) (s s' : state) :
  call_stuff fig s = Ok tt s' ->
  exists t, is_line t /\ s' = set_stdout (stdout s +:+ t) s.
Proof.
  unfold call_stuff, load_fn, bind.
  destruct (load fig _ s) as [v s1| |] eqn:E; [| discriminate..].
  apply load_inv in E as ->.
  destruct v as [| |[]]; try discriminate; unfold ret, call; intros H.
  - apply draw_rect_inv in H as [n ->]. exists (rect_line n). split; [exists n |]; auto.
  - apply draw_circle_inv in H as [n ->]. exists (circle_line n). split; [exists n |]; auto.
Qed.

Lemma run_op_output (o : op) (s s' : state) :
  run_op o s = Ok tt s' ->
  exists ls,
    stdout s' = stdout s +:+ concat_lines ls /\
    length ls = draws [o] /\ Forall is_line ls.
Proof.
  destruct o; simpl; intros H.
  - unfold bind in H. destruct (rect_new perimeter s) eqn:E; try discriminate.
    injection H as <-. apply rect_new_inv in E as (_ & _ & ->).
    exists []. cbn. now rewrite append_nil_r.
  - unfold bind in H. destruct (circle_new radius s) eqn:E; try discriminate.
    injection H as <-. apply circle_new_inv in E as (_ & _ & ->).
    exists []. cbn. now rewrite append_nil_r.
  - apply call_stuff_inv_line in H as (t & Ht & ->).
    exists [t]. cbn. rewrite append_nil_r. auto.
  - apply draw_rect_inv in H as [n ->].
    exists [rect_line n]. cbn. rewrite append_nil_r.
    repeat split; auto. constructor; [exists n |]; auto.
  - apply draw_circle_inv in H as [n ->].
    exists [circle_line n]. cbn. rewrite append_nil_r.
    repeat split; auto. constructor; [exists n |]; auto.
Qed.

Lemma concat_lines_app (ls ls' : list string) :
  concat_lines (ls ++ ls') = concat_lines ls +:+ concat_lines ls'.
Proof.
  induction ls as [|l ls IH]; [reflexivity |].
  cbn [app concat_lines]. now rewrite IH, append_assoc.
Qed.

Lemma lines_of_lines (ls : list string) :
  Forall is_line ls -> length (lines (concat_lines ls)) = length ls.
Proof.
  induction 1 as [|l ls [n [-> | ->]] _ IH]; [reflexivity | |];
    cbn [concat_lines].
  - rewrite lines_rect_line. simpl. now rewrite IH.
  - rewrite lines_circle_line. simpl. now rewrite IH.
Qed.

(** X4: the output only grows, by one line per draw.  After any sequence of
    the program's operations the earlier output is still there, followed by
    exactly as many lines as the sequence has draws (through [call_stuff] or
    by a direct call), each of them a rectangle's or a circle's line;
    constructors write nothing. *)
Theorem one_line_per_draw (os : list op) (s s' : state) :
  run_ops os s = Ok tt s' ->
  exists ls,
    stdout s' = stdout s +:+ concat_lines ls /\
    length ls = draws os /\
    Forall is_line ls /\
    length (lines (concat_lines ls)) = draws os.
Proof.
  intros H.
  assert (exists ls, stdout s' = stdout s +:+ concat_lines ls /\
                     length ls = draws os /\ Forall is_line ls) as (ls & H1 & H2 & H3).
  { revert s H. induction os as [|o os IH]; intros s H.
    - injection H as <-. exists []. cbn. now rewrite append_nil_r.
    - simpl in H. unfold bind in H.
      destruct (run_op o s) as [[] s1| |] eqn:E; try discriminate.
      destruct (run_op_output o s s1 E) as (l1 & Ha & Hb & Hc).
      destruct (IH s1 H) as (l2 & Hd & He & Hf).
      exists (l1 ++ l2). split; [| split].
      + now rewrite Hd, Ha, concat_lines_app, append_assoc.
      + rewrite length_app, Hb, He. now rewrite (draws_cons o os).
      + now apply Forall_app. }
  exists ls. repeat split; auto. now rewrite lines_of_lines.
Qed.

Lemma one_line_per_draw_witness :
  exists s',
    run_ops [NewCircle 5; CallStuff (Loc 1); DrawRect (Loc 1); NewRect 6]
      (init [true; true]) = Ok tt s' /\
    exists ls,
      stdout s' = stdout (init [true; true]) +:+ concat_lines ls /\
      length ls = 2%nat.
Proof.
  eexists. split; [vm_compute; reflexivity |].
  match goal with |- exists ls, stdout ?s1 = _ /\ _ =>
    destruct (one_line_per_draw
                [NewCircle 5; CallStuff (Loc 1); DrawRect (Loc 1); NewRect 6]
                (init [true; true]) s1) as (ls & H1 & H2 & _);
      [vm_compute; reflexivity |]
  end.
  exists ls. split; [exact H1 | exact H2].
Defined.

(** ** Drawing and constructing commute *)



(** ** Sequences of allocations *)

Lemma mallocs_ok_cons (n : nat) (s s1 : state) :
  malloc_ok s -> allocs s1 = tail (allocs s) -> mallocs_ok n s1 ->
  mallocs_ok (S n) s.
Proof.
  unfold mallocs_ok. intros Hm Ht Hn. rewrite (malloc_ok_allocs s Hm).
  simpl. now rewrite <- Ht, Hn.
Qed.

(** X6: objects built one after another do not alias.  When memory lasts
    for all of them, the constructors return as many pointers as shapes,
    none null, all different, each to a block that was not live before and
    is live afterwards; the earlier blocks are untouched and the heap has
    grown by one block per shape.  When memory does not last for all of
    them, the sequence has undefined behaviour. *)
Theorem constructed_objects_are_distinct (shs : list shape) (s : state) :
  (mallocs_ok (length shs) s ->
   exists figs s1,
     new_all shs s = Ok figs s1 /\
     length figs = length shs /\
     NoDup figs /\
     Forall (fun fig => exists l, fig = Loc l /\ heap s !! l = None /\
                                  is_Some (heap s1 !! l)) figs /\
     heap s ⊆ heap s1 /\
     size (heap s1) = (size (heap s) + length shs)%nat) /\
  (~ mallocs_ok (length shs) s -> new_all shs s = UB).
Proof.
  split.
  - revert s. induction shs as [|sh shs IH]; intros s Hm.
    + exists [], s. repeat split; simpl; auto; try constructor; try lia.
    + apply mallocs_ok_S in Hm as [Hm Hrest].
      pose proof (new_ok sh s Hm) as Hnew.
      set (l0 := fresh (dom (heap s))) in *.
      set (s1 := with_object (draw (table_of sh s)) (field sh) s) in *.
      assert (Hl0 : heap s1 !! l0 = Some [Vfun (draw (table_of sh s)); Vint (field sh)])
        by (cbn; apply lookup_insert_eq).
      destruct (IH s1 (Hrest s1 eq_refl))
        as (figs & s2 & Hall & Hlen & Hnd & Hfresh & Hsub & Hsize).
      exists (Loc l0 :: figs), s2. simpl. unfold bind. rewrite Hnew, Hall.
      assert (Hs : heap s ⊆ heap s1) by apply extends_with_object.
      split; [reflexivity |]. split; [simpl; congruence |].
      split; [| split; [| split]].
      * constructor; [| assumption]. intros Hin.
        rewrite Forall_forall in Hfresh.
        destruct (Hfresh _ Hin) as (l & [= <-] & Hnone & _). congruence.
      * constructor.
        -- exists l0. split; [reflexivity |]. split; [apply fresh_unused |].
           exists [Vfun (draw (table_of sh s)); Vint (field sh)].
           eapply lookup_weaken; eauto.
        -- eapply Forall_impl; [exact Hfresh |]. cbn beta.
           intros fig (l & -> & Hnone & Hsome). exists l.
           split; [reflexivity |]. split; [| assumption].
           eapply lookup_weaken_None; eauto.
      * now transitivity (heap s1).
      * rewrite Hsize. unfold s1. rewrite size_with_object. lia.
  - revert s. induction shs as [|sh shs IH]; intros s Hm.
    + destruct Hm. reflexivity.
    + simpl. unfold bind. destruct (decide (malloc_ok s)) as [H|H].
      * rewrite (new_ok sh s H). rewrite IH; [reflexivity |].
        intros Hn. apply Hm. simpl.
        eapply mallocs_ok_cons; [exact H | | exact Hn]. reflexivity.
      * now rewrite (new_no_memory sh s H).
Qed.

Lemma constructed_objects_are_distinct_witness :
  mallocs_ok 3 (init [true; true; true]) /\
  (exists figs s1,
     new_all [Rectangle 1; Circle 2; Rectangle 3] (init [true; true; true]) = Ok figs s1 /\
     NoDup figs /\ size (heap s1) = 3%nat) /\
  ~ mallocs_ok 2 (init [true; false]) /\
  new_all [Rectangle 1; Circle 2] (init [true; false]) = UB.
Proof.
  split; [reflexivity |]. split.
  - destruct (constructed_objects_are_distinct
                [Rectangle 1; Circle 2; Rectangle 3] (init [true; true; true]))
      as [H _].
    destruct (H eq_refl) as (figs & s1 & H1 & _ & H2 & _ & _ & H3).
    exists figs, s1. auto.
  - split; [discriminate |].
    apply (constructed_objects_are_distinct [Rectangle 1; Circle 2] (init [true; false])).
    discriminate.
Defined.

(** ** The driver, anywhere *)

Lemma main_after_rectangle (s : state) :
  tables_intact s -> malloc_ok s ->
  main s =
    (circle <- circle_new 8 ;; call_stuff circle ;;; ret 0)
      (set_stdout (stdout s +:+ rect_line 10) (with_object Fn_draw_rect 10 s)).
Proof.
  intros [Hr _] Hm. unfold main. unfold bind at 1.
  rewrite (rect_new_ok 10 s Hm), Hr. unfold bind at 1.
  rewrite (call_stuff_shape _ _ (Rectangle 10)); [reflexivity |].
  apply object_at_with_object.
Qed.

(** X7: the driver from any state in which the static tables hold their
    initialisers, whatever is live and whatever was written before.  With
    memory for two objects [main] returns 0, appends the rectangle's line
    for 10 and then the circle's line for 8 to the earlier output, leaves
    every earlier block as it was, and leaves its own two blocks live (it
    frees nothing).  With memory for fewer it has undefined behaviour. *)
Theorem main_in_any_state (s : state) :
  tables_intact s ->
  (mallocs_ok 2 s ->
   exists s',
     main s = Ok 0 s' /\
     stdout s' = stdout s +:+ rect_line 10 +:+ circle_line 8 /\
     heap s ⊆ heap s' /\
     size (heap s') = S (S (size (heap s))) /\
     allocs s' = drop 2 (allocs s) /\
     tables_intact s') /\
  (~ mallocs_ok 2 s -> main s = UB).
Proof.
  intros Ht.
  set (sa := set_stdout (stdout s +:+ rect_line 10) (with_object Fn_draw_rect 10 s)).
  assert (Hta : tables_intact sa) by exact Ht.
  assert (Hsub : heap s ⊆ heap sa) by apply (extends_with_object Fn_draw_rect 10 s).
  split.
  - intros Hm. apply mallocs_ok_S in Hm as [Hm Hrest].
    destruct (mallocs_ok_S 0 sa (Hrest sa eq_refl)) as [Hma _].
    rewrite (main_after_rectangle s Ht Hm). fold sa. unfold bind at 1.
    rewrite (circle_new_ok 8 sa Hma). destruct Hta as [Hr Hc]. rewrite Hc.
    unfold bind at 1. rewrite (call_stuff_shape _ _ (Circle 8));
      [| apply object_at_with_object].
    eexists. split; [reflexivity |].
    split; [exact (append_assoc (stdout s) (rect_line 10) (circle_line 8)) |].
    split; [| split; [| split]].
    + etransitivity; [exact Hsub |]. apply (extends_with_object Fn_draw_circle 8 sa).
    + change (size (heap (with_object Fn_draw_circle 8 sa)) = S (S (size (heap s)))).
      rewrite size_with_object. f_equal.
      apply (size_with_object Fn_draw_rect 10 s).
    + cbn. now destruct (allocs s) as [|? [|? ?]].
    + split; [exact Hr | exact Hc].
  - intros Hm. destruct (decide (malloc_ok s)) as [H|H].
    + rewrite (main_after_rectangle s Ht H). fold sa. unfold bind at 1.
      rewrite circle_new_no_memory; [reflexivity |].
      intros Hma. apply Hm.
      apply (mallocs_ok_cons 1 s sa H eq_refl).
      unfold mallocs_ok. now rewrite (malloc_ok_allocs sa Hma).
    + unfold main. unfold bind at 1. now rewrite (rect_new_no_memory 10 s H).
Qed.

Lemma main_in_any_state_witness :
  tables_intact (with_object Fn_draw_circle 1 (init [true; true; true])) /\
  mallocs_ok 2 (with_object Fn_draw_circle 1 (init [true; true; true])) /\
  exists s',
    main (with_object Fn_draw_circle 1 (init [true; true; true])) = Ok 0 s' /\
    size (heap s') = 3%nat.
Proof.
  split; [split; reflexivity |]. split; [reflexivity |].
  destruct (main_in_any_state (with_object Fn_draw_circle 1 (init [true; true; true])))
    as [H _]; [split; reflexivity |].
  destruct (H eq_refl) as (s' & H1 & _ & _ & H2 & _).
  exists s'. split; [exact H1 | exact H2].
Defined.
